(** * scraper.py: the crawl loop and its robots.txt check

    A shallow embedding of [allowed_by_robots] and [crawl] of
    [src/scraper.py].  The loop state ([seen], [queue], [robots_parsers],
    [token_count]) is passed explicitly; everything the loop does to the
    outside (reading a robots.txt, fetching a page, writing to the corpus
    file, sleeping) is recorded, in order, in a trace of events.

    The Python libraries the script calls are not part of the script:
    - [urllib.parse] ([urlparse], [urljoin]), [requests.get] and
      BeautifulSoup are fields of a record [world], the run's arguments
      fields of a record [config];
    - [urllib.robotparser.RobotFileParser] is modelled after CPython's
      [Lib/urllib/robotparser.py]: its flags [disallow_all], [allow_all] and
      [last_checked], the method [read] and the tests at the head of
      [can_fetch] are transcribed; the search through the parsed entries is
      a parameter.
    Exceptions are modelled where the script meets them: [requests.get]
    and [raise_for_status] (caught at line 81), [rp.read()] (caught at line
    51, after the parser has been changed or not), and [urljoin] and
    [urlparse] applied to a link of a page (lines 103-104, caught nowhere:
    the exception leaves [crawl]).  [urlparse] is taken to return on the
    seed URLs and [can_fetch] on the URLs it is asked about; the world does
    not change during a run: a URL gets the same response whenever it is
    requested. *)

From Stdlib Require Import ZArith Lia Ascii.
From stdpp Require Import gmap strings list.

Local Open Scope Z_scope.

(** ** Events *)

Inductive event : Type :=
| EvPop (url : string)          (* url = queue.pop(0) *)
| EvRobotsRead (robots_url : string)   (* rp.read() *)
| EvFetch (url : string)        (* fetch_url(url) *)
| EvWrite (data : string)       (* out.write(text + "\n\n") *)
| EvPush (full : string)        (* queue.append(full) *)
| EvSleep                       (* time.sleep(delay) *)
| EvRaise.                      (* an exception leaves crawl *)

Global Instance event_eq_dec : EqDecision event.
Proof. solve_decision. Defined.

Definition fetched (tr : list event) : list string :=
  omap (fun e => match e with EvFetch u => Some u | _ => None end) tr.

Definition popped (tr : list event) : list string :=
  omap (fun e => match e with EvPop u => Some u | _ => None end) tr.

Definition pushed (tr : list event) : list string :=
  omap (fun e => match e with EvPush u => Some u | _ => None end) tr.

Definition written (tr : list event) : list string :=
  omap (fun e => match e with EvWrite d => Some d | _ => None end) tr.

Definition sleeps (tr : list event) : nat :=
  length (filter (fun e => e = EvSleep) tr).

(** ** urllib.robotparser.RobotFileParser *)

Module Robots.

(** What [urllib.request.urlopen(self.url)] and the decoding of the body
    do inside [read]. *)
Inductive urlopen_result : Type :=
| HTTPError (code : Z)          (* caught by [read] itself *)
| OtherError                    (* URLError, timeout, ...: leaves [read] *)
| Body (lines : option (list string))
    (* [raw.decode("utf-8").splitlines()]; [None] when decoding raises *)
| ParseError (kept : list string).
    (* the body was decoded and [parse] raised at one of its lines (a rule
       path that [urlparse] rejects, a [Crawl-delay] that [int] rejects):
       [kept] are the lines of the entries added before that line *)

(** [last_checked] is [0] until [parse] calls [modified], which stores
    [time.time()]; only its truth value is ever tested.  [parse] calls
    [modified] before it looks at the first line. *)
Record RobotFileParser : Type := mkParser {
  url : string;
  disallow_all : bool;
  allow_all : bool;
  last_checked : bool;
  lines : list string           (* the lines [self.entries] come from *)
}.

(** [RobotFileParser()] followed by [set_url(url)]. *)
Definition new (robots_url : string) : RobotFileParser :=
  mkParser robots_url false false false [].

(** [rp.read()], with the exception it may raise swallowed by the caller:
    the parser is left as it was when the exception was raised. *)
Definition read (r : urlopen_result) (rp : RobotFileParser) : RobotFileParser :=
  match r with
  | HTTPError code =>
      if bool_decide (code = 401 ∨ code = 403)
      then mkParser (url rp) true (allow_all rp) (last_checked rp) (lines rp)
      else if (400 <=? code) && (code <? 500)
      then mkParser (url rp) (disallow_all rp) true (last_checked rp) (lines rp)
      else rp
  | OtherError => rp
  | Body None => rp
  | Body (Some ls) =>
      mkParser (url rp) (disallow_all rp) (allow_all rp) true ls
  | ParseError kept =>
      mkParser (url rp) (disallow_all rp) (allow_all rp) true kept
  end.

(** The retrieval failed: [read] raised (the script logs "Could not read
    robots.txt"), or [urlopen] raised an [HTTPError] that [read] caught.
    Only a body that was received, decoded and parsed to its end is not a
    failure. *)
Definition failed (r : urlopen_result) : bool :=
  match r with
  | Body (Some _) => false
  | _ => true
  end.

(** [rp.read()] raised, so that the script's handler ran. *)
Definition read_raises (r : urlopen_result) : bool :=
  match r with
  | HTTPError _ => false
  | OtherError => true
  | Body None => true
  | Body (Some _) => false
  | ParseError _ => true
  end.

Section CanFetch.

(** The search through [self.entries] and [self.default_entry]. *)
Variable entries_allow : list string -> string -> string -> bool.

Definition can_fetch (rp : RobotFileParser) (useragent u : string) : bool :=
  if disallow_all rp then false
  else if allow_all rp then true
  else if negb (last_checked rp) then false
  else entries_allow (lines rp) useragent u.

End CanFetch.

End Robots.

(** ** The script *)

Definition USER_AGENT : string :=
  "MyLMTrainer/1.0 (+https://yourdomain.com)"%string.

Definition newline : string := String (Ascii.ascii_of_nat 10) EmptyString.

(** [len(text.split())]: the number of maximal runs of characters that are
    not white space (the ASCII white space of [str.split]). *)
Definition is_space (c : ascii) : bool :=
  let n := Ascii.nat_of_ascii c in
  ((9 <=? n)%nat && (n <=? 13)%nat) || ((28 <=? n)%nat && (n <=? 32)%nat).

Fixpoint count_words (in_word : bool) (s : string) : nat :=
  match s with
  | EmptyString => 0
  | String c s' =>
      if is_space c then count_words false s'
      else ((if in_word then 0 else 1) + count_words true s')%nat
  end.

Definition split_len (text : string) : nat := count_words false text.

(** A [requests] response: status code and decoded body. *)
Record response : Type := mkResponse { status_code : Z; resp_text : string }.

(** The libraries and the network the script talks to. *)
Record world : Type := mkWorld {
  url_scheme : string -> string;          (* urlparse(u).scheme *)
  url_netloc : string -> string;          (* urlparse(u).netloc *)
  urljoin : string -> string -> string;
  link_raises : string -> string -> bool;
    (* [urljoin(url, href)], or [urlparse] of the link it returns, raises
       [ValueError] (lines 103-104); [urljoin] above is what line 103
       returns when it does not *)
  urlopen : string -> Robots.urlopen_result;
  entries_allow : list string -> string -> string -> bool;
  requests_get : string -> option response;   (* None: it raised *)
  extract_text : string -> string;
  anchors : string -> list string
    (* [a['href'] for a in soup.find_all('a', href=True)] *)
}.

(** The arguments of [crawl] ([delay] and [output_file] play no part). *)
Record config : Type := mkConfig {
  start_urls : list string;
  max_pages : Z;
  max_tokens : option Z;
  allowed_domains_arg : option (list string)
}.

(** How an iteration of the loop that is not left by an exception ends:
    at its end or by [continue] ([Next]), or by [break]. *)
Inductive flow : Type := Next | Break.

Record state : Type := mkState {
  seen : gset string;
  queue : list string;
  robots_parsers : gmap string Robots.RobotFileParser;
  token_count : Z;
  trace : list event
}.

(** What an iteration of the loop comes to: it ends, or an exception that
    nothing catches leaves it, and [crawl] with it. *)
Inductive result : Type :=
| Done (st' : state) (fl : flow)
| Raised (st' : state).

Section Crawler.

Context (W : world) (C : config).

(** [fetch_url]: [None] when [requests.get] or [raise_for_status] raises. *)
Definition fetch_url (u : string) : option string :=
  match requests_get W u with
  | None => None
  | Some r =>
      if (400 <=? status_code r) && (status_code r <? 600) then None
      else Some (resp_text r)
  end.

(** [base] of [allowed_by_robots]. *)
Definition origin (u : string) : string :=
  url_scheme W u +:+ "://"%string +:+ url_netloc W u.

Definition robots_url_of (base : string) : string :=
  urljoin W base "/robots.txt"%string.

(** The parser [allowed_by_robots] stores for an origin: a new one, after
    [read] in a [try] whose handler only logs. *)
Definition parser_of (base : string) : Robots.RobotFileParser :=
  Robots.read (urlopen W (robots_url_of base)) (Robots.new (robots_url_of base)).

(** The result, the dictionary after the call, and what was done.  A
    [RobotFileParser] is always true as a condition (the class defines
    neither [__bool__] nor [__len__]), so [if not rp] tests whether the
    origin is missing from the dictionary. *)
Definition allowed_by_robots (u : string)
    (parsers : gmap string Robots.RobotFileParser)
  : bool * gmap string Robots.RobotFileParser * list event :=
  let base := origin u in
  match parsers !! base with
  | Some rp =>
      (Robots.can_fetch (entries_allow W) rp USER_AGENT u, parsers, [])
  | None =>
      let rp := parser_of base in
      (Robots.can_fetch (entries_allow W) rp USER_AGENT u,
       <[base := rp]> parsers,
       [EvRobotsRead (robots_url_of base)])
  end.

Definition allowed_domains : gset string :=
  match allowed_domains_arg C with
  | None => list_to_set (url_netloc W <$> start_urls C)
  | Some ds => list_to_set ds
  end.

(** The two tests of lines 106-109 taken together. *)
Definition eligible (full : string) : bool :=
  bool_decide (url_scheme W full ∈ ["http"%string; "https"%string])
  && bool_decide (url_netloc W full ∈ allowed_domains).

(** One turn of [for a in soup.find_all('a', href=True)] for an [href] on
    which lines 103-104 return: [full] is what [urljoin] returned, and lines
    105-111 filter or append it.  Whether lines 103-104 return is asked by
    [push_links], before it calls [push_link]. *)
Definition push_link (sn : gset string) (u : string)
    (acc : list string * list event) (href : string)
  : list string * list event :=
  let full := urljoin W u href in
  if negb (bool_decide (url_scheme W full ∈ ["http"%string; "https"%string]))
  then acc
  else if negb (bool_decide (url_netloc W full ∈ allowed_domains)) then acc
  else if bool_decide (full ∉ sn) && bool_decide (full ∉ acc.1)
  then (acc.1 ++ [full], acc.2 ++ [EvPush full])
  else acc.

(** The [for] loop of lines 101-111: the queue and the trace after it, and
    whether it was left by the [ValueError] of a link, the links after that
    one not being looked at. *)
Fixpoint push_links (sn : gset string) (u : string) (hrefs : list string)
    (q : list string) (tr : list event) : list string * list event * bool :=
  match hrefs with
  | [] => (q, tr, false)
  | href :: hrefs' =>
      if link_raises W u href then (q, tr, true)
      else
        let acc := push_link sn u (q, tr) href in
        push_links sn u hrefs' acc.1 acc.2
  end.

(** The links of a page that the [for] loop gets to: those before the
    first one on which lines 103-104 raise. *)
Fixpoint before_raise (u : string) (hrefs : list string) : list string :=
  match hrefs with
  | [] => []
  | href :: hrefs' =>
      if link_raises W u href then [] else href :: before_raise u hrefs'
  end.

(** Lines 87-96: [if text:] write it, count its tokens when a limit is set,
    and [break] when the limit is reached.  The result is the token count,
    the trace and whether the loop is left. *)
Definition write_text (text : string) (tc : Z) (tr : list event)
  : Z * list event * flow :=
  if bool_decide (text ≠ EmptyString) then
    let tr' := tr ++ [EvWrite (text +:+ newline +:+ newline)] in
    match max_tokens C with
    | Some m =>
        let tc' := tc + Z.of_nat (split_len text) in
        if m <=? tc' then (tc', tr', Break) else (tc', tr', Next)
    | None => (tc, tr', Next)
    end
  else (tc, tr, Next).

(** The body of the [while] loop (lines 71-112), entered with
    [queue = u :: rest].  When a link of the page raises, the URL is in
    [seen] already (line 97), the links before that one are in the queue,
    and the [time.sleep] of line 112 is not reached. *)
Definition loop_body (u : string) (rest : list string) (st : state)
  : result :=
  let tr0 := trace st ++ [EvPop u] in
  if bool_decide (u ∈ seen st) then
    Done (mkState (seen st) rest (robots_parsers st) (token_count st) tr0) Next
  else
    let '(ok, parsers, evs) := allowed_by_robots u (robots_parsers st) in
    let tr1 := tr0 ++ evs in
    if negb ok then
      Done (mkState ({[u]} ∪ seen st) rest parsers (token_count st) tr1) Next
    else
      let tr2 := tr1 ++ [EvFetch u] in
      match fetch_url u with
      | None =>
          Done (mkState ({[u]} ∪ seen st) rest parsers (token_count st)
                  (tr2 ++ [EvSleep])) Next
      | Some html =>
          match write_text (extract_text W html) (token_count st) tr2 with
          | (tc, tr3, Break) => Done (mkState (seen st) rest parsers tc tr3) Break
          | (tc, tr3, Next) =>
              let sn := {[u]} ∪ seen st in
              match push_links sn u (anchors W html) rest tr3 with
              | (q, tr4, false) =>
                  Done (mkState sn q parsers tc (tr4 ++ [EvSleep])) Next
              | (q, tr4, true) =>
                  Raised (mkState sn q parsers tc (tr4 ++ [EvRaise]))
              end
          end
      end.

(** The condition of the [while] loop (line 70). *)
Definition loop_guard (st : state) : bool :=
  negb (bool_decide (queue st = []))
  && (Z.of_nat (size (seen st)) <? max_pages C)
  && match max_tokens C with
     | None => true
     | Some m => token_count st <? m
     end.

(** One iteration, when the condition holds; [None] when it does not. *)
Definition iteration (st : state) : option result :=
  if loop_guard st then
    match queue st with
    | [] => None
    | u :: rest => Some (loop_body u rest st)
    end
  else None.

(** An iteration that is not left by an exception: the state after it and
    the way it ended. *)
Definition loop_step (st : state) : option (state * flow) :=
  match iteration st with
  | Some (Done st' fl) => Some (st', fl)
  | _ => None
  end.

(** The [while] loop; [None] when the fuel runs out.  The result is the
    state in which the loop is left: its condition fails, a [break] is
    executed, or an exception is raised ([EvRaise] is then the last
    event). *)
Fixpoint crawl_loop (fuel : nat) (st : state) : option state :=
  match fuel with
  | O => None
  | S n =>
      match iteration st with
      | None => Some st
      | Some (Raised st') => Some st'
      | Some (Done st' Break) => Some st'
      | Some (Done st' Next) => crawl_loop n st'
      end
  end.

Definition init : state := mkState ∅ (start_urls C) ∅ 0 [].

Definition crawl (fuel : nat) : option state := crawl_loop fuel init.

(** *** Predicates of the proofs *)

(** The states the loop passes through on its way, each with the way the
    iteration that produced it ended. *)
Inductive run_state : state -> flow -> Prop :=
| run_init : run_state init Next
| run_iter st st' fl :
    run_state st Next -> loop_step st = Some (st', fl) -> run_state st' fl.

(** Every cached parser is the one [allowed_by_robots] builds. *)
Definition cache_ok (parsers : gmap string Robots.RobotFileParser) : Prop :=
  forall base rp, parsers !! base = Some rp -> rp = parser_of base.

(** The answer of the robots check for [u], whatever the cache holds. *)
Definition robots_ok (u : string) : bool :=
  Robots.can_fetch (entries_allow W) (parser_of (origin u)) USER_AGENT u.

(** Page [n] of a chain: it is served, links to page [n + 1], and links
    to nothing but pages of the chain up to [n + 1], by links that
    [urljoin] and [urlparse] accept. *)
Definition chain_page (chain : nat -> string) (n : nat) (html : string)
  : Prop :=
  fetch_url (chain n) = Some html
  /\ (exists h, h ∈ anchors W html /\ urljoin W (chain n) h = chain (S n))
  /\ (forall h, h ∈ anchors W html ->
        link_raises W (chain n) h = false
        /\ exists m, (m <= S n)%nat /\ urljoin W (chain n) h = chain m).

(** An unbounded chain of distinct pages of the allowed domains, open to
    robots, crawled from its first page. *)
Definition chain_web (chain : nat -> string) : Prop :=
  (forall i j, chain i = chain j -> i = j)
  /\ start_urls C = [chain 0%nat]
  /\ (forall n, eligible (chain n) = true)
  /\ (forall n, robots_ok (chain n) = true)
  /\ (forall n, exists html, chain_page chain n html).

(** The five ways through the body that no exception cuts short. *)
Inductive body_case (u : string) (rest : list string) (st st' : state)
  : flow -> Prop :=
| case_seen :
    u ∈ seen st ->
    st' = mkState (seen st) rest (robots_parsers st) (token_count st)
            (trace st ++ [EvPop u]) ->
    body_case u rest st st' Next
| case_denied parsers evs :
    u ∉ seen st ->
    allowed_by_robots u (robots_parsers st) = (false, parsers, evs) ->
    st' = mkState ({[u]} ∪ seen st) rest parsers (token_count st)
            ((trace st ++ [EvPop u]) ++ evs) ->
    body_case u rest st st' Next
| case_failed parsers evs :
    u ∉ seen st ->
    allowed_by_robots u (robots_parsers st) = (true, parsers, evs) ->
    fetch_url u = None ->
    st' = mkState ({[u]} ∪ seen st) rest parsers (token_count st)
            ((((trace st ++ [EvPop u]) ++ evs) ++ [EvFetch u]) ++ [EvSleep]) ->
    body_case u rest st st' Next
| case_budget parsers evs html tc tr3 :
    u ∉ seen st ->
    allowed_by_robots u (robots_parsers st) = (true, parsers, evs) ->
    fetch_url u = Some html ->
    write_text (extract_text W html) (token_count st)
      (((trace st ++ [EvPop u]) ++ evs) ++ [EvFetch u]) = (tc, tr3, Break) ->
    st' = mkState (seen st) rest parsers tc tr3 ->
    body_case u rest st st' Break
| case_page parsers evs html tc tr3 new :
    u ∉ seen st ->
    allowed_by_robots u (robots_parsers st) = (true, parsers, evs) ->
    fetch_url u = Some html ->
    write_text (extract_text W html) (token_count st)
      (((trace st ++ [EvPop u]) ++ evs) ++ [EvFetch u]) = (tc, tr3, Next) ->
    push_links ({[u]} ∪ seen st) u (anchors W html) rest tr3
      = (rest ++ new, tr3 ++ (EvPush <$> new), false) ->
    NoDup new ->
    (forall x, (x ∈ new) <->
       (x ∈ (urljoin W u <$> anchors W html) /\ eligible x = true
        /\ (x ∉ ({[u]} ∪ seen st)) /\ x ∉ rest)) ->
    st' = mkState ({[u]} ∪ seen st) (rest ++ new) parsers tc
            ((tr3 ++ (EvPush <$> new)) ++ [EvSleep]) ->
    body_case u rest st st' Next.

(** The state at the head of the loop after [k] pages of a chain. *)
Definition chain_inv (chain : nat -> string) (k : nat) (st : state) : Prop :=
  seen st = list_to_set (chain <$> seq 0 k)
  /\ queue st = [chain k]
  /\ cache_ok (robots_parsers st)
  /\ fetched (trace st) = chain <$> seq 0 k.

End Crawler.

(** ** The host of the specification *)


(** ** Small worlds to run the script in *)

Module Toy.

(** Pages [http://h/], [http://h/x], [http://h/xx], ...: each links to the
    next one and to itself (hrefs [x] and the empty href), and holds the
    text [page_text]. *)
Fixpoint chain (n : nat) : string :=
  match n with
  | O => "http://h/"%string
  | S k => chain k +:+ "x"%string
  end.

Fixpoint words (n : nat) : string :=
  match n with
  | O => EmptyString
  | S k => String "w"%char (String " "%char (words k))
  end.

Definition web (robots : Robots.urlopen_result) (page_text : string) : world :=
  mkWorld (fun _ => "http"%string) (fun _ => "h"%string)
    (fun base href => base +:+ href)
    (fun _ _ => false)
    (fun _ => robots) (fun _ _ _ => true)
    (fun u => Some (mkResponse 200 u))
    (fun _ => page_text)
    (fun _ => ["x"%string; EmptyString]).

Definition conf (seeds : list string) (pages : Z) (tokens : option Z) : config :=
  mkConfig seeds pages tokens None.



(** The pages of [web], each with a link that [urljoin] rejects
    ([http://[bad]: "Invalid IPv6 URL") between its two links. *)
Definition broken (page_text : string) : world :=
  mkWorld (fun _ => "http"%string) (fun _ => "h"%string)
    (fun base href => base +:+ href)
    (fun _ href => bool_decide (href = "http://[bad"%string))
    (fun _ => Robots.HTTPError 404) (fun _ _ _ => true)
    (fun u => Some (mkResponse 200 u))
    (fun _ => page_text)
    (fun _ => [EmptyString; "http://[bad"%string; "x"%string]).

End Toy.

(** * Proofs *)

(** ** The trace projections *)

Lemma fetched_app tr1 tr2 : fetched (tr1 ++ tr2) = fetched tr1 ++ fetched tr2.
Proof. apply omap_app. Qed.

Lemma popped_app tr1 tr2 : popped (tr1 ++ tr2) = popped tr1 ++ popped tr2.
Proof. apply omap_app. Qed.

Lemma pushed_app tr1 tr2 : pushed (tr1 ++ tr2) = pushed tr1 ++ pushed tr2.
Proof. apply omap_app. Qed.

Lemma written_app tr1 tr2 : written (tr1 ++ tr2) = written tr1 ++ written tr2.
Proof. apply omap_app. Qed.

Lemma sleeps_app tr1 tr2 : sleeps (tr1 ++ tr2) = (sleeps tr1 + sleeps tr2)%nat.
Proof. unfold sleeps. by rewrite filter_app, length_app. Qed.

Lemma sleeps_one e :
  sleeps [e] = match e with EvSleep => 1%nat | _ => 0%nat end.
Proof. by destruct e. Qed.

Lemma fetched_pushes l : fetched (EvPush <$> l) = [].
Proof. induction l; simpl; auto. Qed.

Lemma popped_pushes l : popped (EvPush <$> l) = [].
Proof. induction l; simpl; auto. Qed.

Lemma written_pushes l : written (EvPush <$> l) = [].
Proof. induction l; simpl; auto. Qed.

Lemma sleeps_pushes l : sleeps (EvPush <$> l) = 0%nat.
Proof. induction l; simpl; auto. Qed.

Lemma pushed_pushes l : pushed (EvPush <$> l) = l.
Proof. induction l; simpl; [done | by f_equal]. Qed.

(** ** The robots check *)

Section RobotsFacts.

Context (W : world).

Lemma can_fetch_unread ea robots_url ua u :
  Robots.can_fetch ea (Robots.new robots_url) ua u = false.
Proof. reflexivity. Qed.

Lemma cache_ok_empty : cache_ok W ∅.
Proof. intros base rp H. by rewrite lookup_empty in H. Qed.

(** With a cache filled by the script itself, the answer is that of the
    parser built for the origin, and the cache stays so. *)
Lemma allowed_by_robots_spec u parsers :
  cache_ok W parsers ->
  (allowed_by_robots W u parsers).1.1 = robots_ok W u
  /\ cache_ok W (allowed_by_robots W u parsers).1.2
  /\ fetched (allowed_by_robots W u parsers).2 = []
  /\ written (allowed_by_robots W u parsers).2 = []
  /\ popped (allowed_by_robots W u parsers).2 = []
  /\ pushed (allowed_by_robots W u parsers).2 = []
  /\ sleeps (allowed_by_robots W u parsers).2 = 0%nat.
Proof.
  intros Hok. unfold allowed_by_robots, robots_ok.
  destruct (parsers !! origin W u) as [rp|] eqn:E; simpl.
  - rewrite (Hok _ _ E). repeat split; auto.
  - repeat split; auto.
    intros base rp. rewrite lookup_insert. case_decide.
    + intros [= <-]. by subst.
    + apply Hok.
Qed.

End RobotsFacts.

(** C1, as stated, fails: when reading robots.txt raises (a network error),
    the parser is left unread and the check answers [false]. *)
Lemma robots_fail_open_refuted :
  ~ (forall (W : world) (u : string),
       Robots.failed (urlopen W (robots_url_of W (origin W u))) = true ->
       (allowed_by_robots W u ∅).1.1 = true).
Proof.
  intros H.
  specialize (H (Toy.web Robots.OtherError EmptyString) (Toy.chain 0) eq_refl).
  vm_compute in H. discriminate.
Qed.

(** C1, amended: the check answers [true] for every URL of an origin whose
    robots.txt retrieval failed with a status from 400 to 499 other than 401
    and 403.  It answers [false] when the failure left the parser unread or
    closed: an exception out of [urlopen] or out of the decoding of the
    body, status 401 or 403, any other error status.  When the body was
    decoded and [parse] raised on one of its lines, the parser counts as
    read, and the answer is that of the rules of the entries added before
    that line: it may be either. *)
Theorem robots_open_on_4xx_only (W : world) (u : string)
    (parsers : gmap string Robots.RobotFileParser) :
  cache_ok W parsers ->
  (forall code,
      urlopen W (robots_url_of W (origin W u)) = Robots.HTTPError code ->
      400 <= code < 500 -> code <> 401 -> code <> 403 ->
      (allowed_by_robots W u parsers).1.1 = true)
  /\ (Robots.failed (urlopen W (robots_url_of W (origin W u))) = true ->
      (forall kept,
          urlopen W (robots_url_of W (origin W u)) <> Robots.ParseError kept) ->
      (forall code,
          urlopen W (robots_url_of W (origin W u)) = Robots.HTTPError code ->
          code = 401 \/ code = 403 \/ code < 400 \/ 500 <= code) ->
      (allowed_by_robots W u parsers).1.1 = false)
  /\ (forall kept,
        urlopen W (robots_url_of W (origin W u)) = Robots.ParseError kept ->
        Robots.failed (urlopen W (robots_url_of W (origin W u))) = true
        /\ Robots.read_raises (urlopen W (robots_url_of W (origin W u))) = true
        /\ (allowed_by_robots W u parsers).1.1
           = entries_allow W kept USER_AGENT u).
Proof.
  intros Hok.
  destruct (allowed_by_robots_spec W u parsers Hok) as [-> _].
  unfold robots_ok, parser_of. split_and!.
  - intros code -> Hr H1 H3. unfold Robots.read.
    rewrite bool_decide_eq_false_2 by lia.
    replace ((400 <=? code) && (code <? 500)) with true
      by (symmetry; apply andb_true_iff; lia).
    reflexivity.
  - intros Hf Hp Hc.
    destruct (urlopen W (robots_url_of W (origin W u))) as [code| |[ls|]|kept];
      try reflexivity; try discriminate.
    + unfold Robots.read. case_bool_decide; [reflexivity|].
      replace ((400 <=? code) && (code <? 500)) with false; [reflexivity|].
      symmetry. apply andb_false_iff.
      destruct (Hc code eq_refl) as [?|[?|[?|?]]]; lia.
    + by destruct (Hp kept).
  - intros kept ->. split_and!; reflexivity.
Qed.

Lemma robots_open_on_4xx_only_witness :
  let W := Toy.web (Robots.HTTPError 404) EmptyString in
  let W' := Toy.web (Robots.ParseError ["User-agent: *"%string]) EmptyString in
  cache_ok W ∅ /\ (allowed_by_robots W (Toy.chain 0) ∅).1.1 = true
  /\ cache_ok W' ∅
  /\ (allowed_by_robots W' (Toy.chain 0) ∅).1.1
     = entries_allow W' ["User-agent: *"%string] USER_AGENT (Toy.chain 0).
Proof.
  intros W W'. split; [apply cache_ok_empty|]. split.
  - apply (proj1 (robots_open_on_4xx_only W (Toy.chain 0) ∅ (cache_ok_empty W))
             404); [reflexivity | lia | lia | lia].
  - split; [apply cache_ok_empty|].
    apply (proj2 (proj2 (robots_open_on_4xx_only W' (Toy.chain 0) ∅
                           (cache_ok_empty W')))
             ["User-agent: *"%string] eq_refl).
Defined.

(** ** One iteration *)

Section LoopFacts.

Context (W : world) (C : config).

Lemma write_text_cases text tc tr tc' tr' fl :
  write_text C text tc tr = (tc', tr', fl) ->
  (text = EmptyString /\ tc' = tc /\ tr' = tr /\ fl = Next)
  \/ (text <> EmptyString
      /\ tr' = tr ++ [EvWrite (text +:+ newline +:+ newline)]
      /\ ((max_tokens C = None /\ tc' = tc /\ fl = Next)
          \/ (exists m, max_tokens C = Some m
                /\ tc' = tc + Z.of_nat (split_len text)
                /\ ((m <= tc' /\ fl = Break) \/ (tc' < m /\ fl = Next))))).
Proof.
  unfold write_text. case_bool_decide as Ht.
  - destruct (max_tokens C) as [m|] eqn:Em.
    + destruct (Z.leb_spec m (tc + Z.of_nat (split_len text)));
        intros [= <- <- <-]; right; repeat split; auto; right; exists m;
        repeat split; auto.
    + intros [= <- <- <-]. right. repeat split; auto.
  - intros [= <- <- <-]. left. repeat split; auto.
Qed.

Lemma existsb_false {A} (f : A -> bool) (l : list A) :
  existsb f l = false <-> forall x, x ∈ l -> f x = false.
Proof.
  induction l as [|a l IH]; simpl.
  - split; [by intros _ x ?%elem_of_nil|done].
  - rewrite orb_false_iff, IH. split.
    + intros [Ha Hl] x [->|Hx]%elem_of_cons; auto.
    + intros H. split; [apply H; by left|]. intros x Hx. apply H. by right.
Qed.

Lemma before_raise_all u hrefs :
  existsb (link_raises W u) hrefs = false -> before_raise W u hrefs = hrefs.
Proof.
  induction hrefs as [|h hs IH]; simpl; [done|].
  destruct (link_raises W u h); simpl; [done|]. intros H. by rewrite IH.
Qed.

(** The [for] loop over the links of a page: it gets to the links before
    the first one that raises, and appends those of them that pass the
    tests of lines 105-110, each once. *)
Lemma push_links_spec sn u hrefs q tr :
  exists new,
    push_links W C sn u hrefs q tr
    = (q ++ new, tr ++ (EvPush <$> new), existsb (link_raises W u) hrefs)
    /\ NoDup new
    /\ forall x, (x ∈ new) <->
         (x ∈ (urljoin W u <$> before_raise W u hrefs) /\ eligible W C x = true
          /\ (x ∉ sn) /\ x ∉ q).
Proof.
  revert q tr.
  induction hrefs as [|h hs IH]; intros q tr; simpl.
  - exists []. rewrite !app_nil_r. split; [done|]. split; [constructor|].
    intros x. split; [by intros ?%elem_of_nil | by intros [?%elem_of_nil _]].
  - destruct (link_raises W u h) eqn:Eraise; simpl.
    { exists []. rewrite !app_nil_r. split; [done|]. split; [constructor|].
      intros x. split; [by intros ?%elem_of_nil | by intros [?%elem_of_nil _]]. }
    unfold push_link. simpl. unfold eligible.
    set (full := urljoin W u h).
    destruct (bool_decide (url_scheme W full ∈ ["http"%string; "https"%string]))
      eqn:Es; simpl.
    2:{ destruct (IH q tr) as (new & E & Hnd & Hin). exists new.
        split; [done|]. split; [done|]. intros x. rewrite Hin.
        rewrite elem_of_cons. split; [tauto|].
        intros ([->|?] & He & ?); [|tauto].
        rewrite Es in He. discriminate. }
    destruct (bool_decide (url_netloc W full ∈ allowed_domains W C))
      eqn:En; simpl.
    2:{ destruct (IH q tr) as (new & E & Hnd & Hin). exists new.
        split; [done|]. split; [done|]. intros x. rewrite Hin.
        rewrite elem_of_cons. split; [tauto|].
        intros ([->|?] & He & ?); [|tauto].
        rewrite Es, En in He. discriminate. }
    destruct (bool_decide (full ∉ sn) && bool_decide (full ∉ q)) eqn:Ef; simpl.
    + apply andb_true_iff in Ef as [Hs%bool_decide_eq_true Hq%bool_decide_eq_true].
      destruct (IH (q ++ [full]) (tr ++ [EvPush full])) as (new & E & Hnd & Hin).
      exists (full :: new). rewrite E, <- !app_assoc. simpl.
      split; [done|]. split.
      * constructor; [|done]. intros Hx%Hin. destruct Hx as (_ & _ & _ & Hx).
        apply Hx, elem_of_app. right. by apply list_elem_of_singleton.
      * intros x. rewrite !elem_of_cons, Hin.
        destruct (decide (x = full)) as [->|Hne].
        -- rewrite Es, En. split; [|by left]. intros _. split_and!; auto.
        -- rewrite elem_of_app, list_elem_of_singleton. tauto.
    + destruct (IH q tr) as (new & E & Hnd & Hin). exists new.
      split; [done|]. split; [done|]. intros x. rewrite Hin.
      rewrite elem_of_cons. split; [tauto|].
      intros ([->|?] & He & Hs & Hq); [|tauto].
      apply andb_false_iff in Ef as [Hf%bool_decide_eq_false|Hf%bool_decide_eq_false];
        by destruct Hf.
Qed.

Lemma loop_body_cases u rest st st' fl :
  loop_body W C u rest st = Done st' fl -> body_case W C u rest st st' fl.
Proof.
  unfold loop_body. case_bool_decide as Hs.
  - intros [= <- <-]. by constructor.
  - destruct (allowed_by_robots W u (robots_parsers st)) as [[ok parsers] evs]
      eqn:Er.
    destruct ok; simpl.
    2:{ intros [= <- <-]. by eapply case_denied. }
    destruct (fetch_url W u) as [html|] eqn:Ef.
    2:{ intros [= <- <-]. by eapply case_failed. }
    destruct (write_text _ _ _ _) as [[tc tr3] [|]] eqn:Ew.
    + destruct (push_links_spec ({[u]} ∪ seen st) u (anchors W html) rest tr3)
        as (new & E & Hnd & Hin).
      rewrite E. destruct (existsb _ _) eqn:Ex; [discriminate|].
      rewrite (before_raise_all _ _ Ex) in Hin.
      intros [= <- <-]. by eapply case_page.
    + intros [= <- <-]. by eapply case_budget.
Qed.

(** The one way through the body that an exception cuts short: a page
    that was fetched and written without reaching the token limit, and one
    of whose links raises. *)
Lemma loop_body_raised_case u rest st st' :
  loop_body W C u rest st = Raised st' ->
  exists parsers evs html tc tr3 new,
    u ∉ seen st
    /\ allowed_by_robots W u (robots_parsers st) = (true, parsers, evs)
    /\ fetch_url W u = Some html
    /\ write_text C (extract_text W html) (token_count st)
         (((trace st ++ [EvPop u]) ++ evs) ++ [EvFetch u]) = (tc, tr3, Next)
    /\ existsb (link_raises W u) (anchors W html) = true
    /\ NoDup new
    /\ (forall x, (x ∈ new) <->
          (x ∈ (urljoin W u <$> before_raise W u (anchors W html))
           /\ eligible W C x = true
           /\ (x ∉ ({[u]} ∪ seen st)) /\ x ∉ rest))
    /\ st' = mkState ({[u]} ∪ seen st) (rest ++ new) parsers tc
               ((tr3 ++ (EvPush <$> new)) ++ [EvRaise]).
Proof.
  unfold loop_body. case_bool_decide as Hs; [done|].
  destruct (allowed_by_robots W u (robots_parsers st)) as [[ok parsers] evs].
  destruct ok; simpl; [|done].
  destruct (fetch_url W u) as [html|] eqn:Ef; [|done].
  destruct (write_text _ _ _ _) as [[tc tr3] [|]] eqn:Ew; [|done].
  destruct (push_links_spec ({[u]} ∪ seen st) u (anchors W html) rest tr3)
    as (new & E & Hnd & Hin).
  rewrite E. destruct (existsb _ _) eqn:Ex; [|done].
  intros [= <-]. exists parsers, evs, html, tc, tr3, new. split_and!; done.
Qed.

Lemma loop_body_raised u rest st st' :
  loop_body W C u rest st = Raised st' ->
  exists html, fetch_url W u = Some html
               /\ existsb (link_raises W u) (anchors W html) = true.
Proof.
  intros (ps & evs & html & tc & tr3 & new & _ & _ & Hf & _ & Hx & _)
    %loop_body_raised_case.
  eauto.
Qed.

Lemma loop_body_done u rest st :
  (forall html, fetch_url W u = Some html ->
                existsb (link_raises W u) (anchors W html) = false) ->
  exists st' fl, loop_body W C u rest st = Done st' fl.
Proof.
  intros H. destruct (loop_body W C u rest st) as [st' fl|st'] eqn:E; [eauto|].
  apply loop_body_raised in E as (html & Hf & Hx).
  rewrite (H html Hf) in Hx. discriminate.
Qed.

Lemma loop_step_iteration st st' fl :
  loop_step W C st = Some (st', fl) <-> iteration W C st = Some (Done st' fl).
Proof.
  unfold loop_step. destruct (iteration W C st) as [[st1 fl1|st1]|];
    split; intros [= <- <-] || done; done.
Qed.

(** What the loop does after an iteration that is not left by an
    exception. *)
Lemma crawl_loop_step st st' fl n :
  loop_step W C st = Some (st', fl) ->
  crawl_loop W C (S n) st
  = match fl with Next => crawl_loop W C n st' | Break => Some st' end.
Proof. intros E%loop_step_iteration. simpl. rewrite E. by destruct fl. Qed.

Lemma loop_step_cases st st' fl :
  loop_step W C st = Some (st', fl) ->
  loop_guard C st = true
  /\ exists u rest, queue st = u :: rest /\ body_case W C u rest st st' fl.
Proof.
  intros E%loop_step_iteration. unfold iteration in E.
  destruct (loop_guard C st); [|done].
  destruct (queue st) as [|u rest]; [done|].
  injection E as E. split; [done|]. exists u, rest. split; [done|].
  by apply loop_body_cases.
Qed.

Lemma loop_guard_spec st :
  loop_guard C st = true <->
  queue st <> []
  /\ Z.of_nat (size (seen st)) < max_pages C
  /\ (max_tokens C = None
      \/ exists m, max_tokens C = Some m /\ token_count st < m).
Proof.
  unfold loop_guard. rewrite !andb_true_iff, negb_true_iff.
  rewrite bool_decide_eq_false, Z.ltb_lt.
  destruct (max_tokens C) as [m|].
  - rewrite Z.ltb_lt. split.
    + intros [[? ?] ?]. repeat split; eauto.
    + intros (? & ? & [?|(m' & [= <-] & ?)]); [done|]. repeat split; auto.
  - split.
    + intros [[? ?] ?]. repeat split; eauto.
    + intros (? & ? & _). repeat split; auto.
Qed.

(** What one iteration adds to the trace and the state. *)

Lemma robots_events u parsers b parsers' evs :
  allowed_by_robots W u parsers = (b, parsers', evs) ->
  fetched evs = [] /\ popped evs = [] /\ pushed evs = []
  /\ written evs = [] /\ sleeps evs = 0%nat.
Proof.
  unfold allowed_by_robots. destruct (parsers !! origin W u);
    intros [= <- <- <-]; auto.
Qed.

Lemma robots_cache u parsers b parsers' evs :
  allowed_by_robots W u parsers = (b, parsers', evs) ->
  cache_ok W parsers -> cache_ok W parsers' /\ b = robots_ok W u.
Proof.
  intros E Hok. destruct (allowed_by_robots_spec W u parsers Hok) as (H1 & H2 & _).
  rewrite E in H1, H2. auto.
Qed.

Lemma write_text_trace text tc tr tc' tr' fl :
  write_text C text tc tr = (tc', tr', fl) ->
  fetched tr' = fetched tr /\ popped tr' = popped tr
  /\ pushed tr' = pushed tr /\ sleeps tr' = sleeps tr.
Proof.
  intros [(_ & _ & -> & _)|(_ & -> & _)]%write_text_cases; [done|].
  rewrite fetched_app, popped_app, pushed_app, sleeps_app; simpl.
  rewrite !app_nil_r. auto with lia.
Qed.

Lemma written_nonempty_nil d :
  d ∈ @nil string ->
  exists text, text <> EmptyString /\ d = text +:+ newline +:+ newline.
Proof. by intros ?%elem_of_nil. Qed.

Local Ltac close_summary :=
  first [ done | by constructor | by intros ? ?%elem_of_nil | by left
        | by right | by apply written_nonempty_nil
        | by (intros _; apply leibniz_equiv; set_solver) | idtac ].

(** The summary of an iteration that popped [u]: [new] are the links it
    appended, [fs] the fetches it issued, [ws] what it wrote. *)
Lemma body_case_summary u rest st st' fl :
  body_case W C u rest st st' fl ->
  exists new fs ws,
    queue st' = rest ++ new
    /\ NoDup new
    /\ (forall x, x ∈ new -> (x ∉ seen st') /\ x ∉ rest)
    /\ popped (trace st') = popped (trace st) ++ [u]
    /\ pushed (trace st') = pushed (trace st) ++ new
    /\ fetched (trace st') = fetched (trace st) ++ fs
    /\ (fs = [] \/ (fs = [u] /\ u ∉ seen st))
    /\ written (trace st') = written (trace st) ++ ws
    /\ (forall d, d ∈ ws ->
          exists text, text <> EmptyString /\ d = text +:+ newline +:+ newline)
    /\ (fl = Next -> seen st' = {[u]} ∪ seen st)
    /\ (fl = Break -> seen st' = seen st /\ fs = [u])
    /\ (cache_ok W (robots_parsers st) -> cache_ok W (robots_parsers st')).
Proof.
  destruct 1 as [Hs E | parsers evs Hs Er E | parsers evs Hs Er Ef E
                | parsers evs html tc tr3 Hs Er Ef Ew E
                | parsers evs html tc tr3 new Hs Er Ef Ew Ep Hnd Hin E].
  - exists [], [], []. subst st'. simpl. rewrite popped_app, pushed_app,
      fetched_app, written_app, ?app_nil_r. simpl. rewrite ?app_nil_r.
    split_and!; close_summary.
  - destruct (robots_events _ _ _ _ _ Er) as (E1 & E2 & E3 & E4 & E5).
    exists [], [], []. subst st'. simpl.
    rewrite !popped_app, !pushed_app, !fetched_app, !written_app, E1, E2, E3, E4.
    simpl. rewrite ?app_nil_r.
    split_and!; close_summary.
    intros Hok. by destruct (robots_cache _ _ _ _ _ Er Hok).
  - destruct (robots_events _ _ _ _ _ Er) as (E1 & E2 & E3 & E4 & E5).
    exists [], [u], []. subst st'. simpl.
    rewrite !popped_app, !pushed_app, !fetched_app, !written_app, E1, E2, E3, E4.
    simpl. rewrite ?app_nil_r.
    split_and!; close_summary.
    intros Hok. by destruct (robots_cache _ _ _ _ _ Er Hok).
  - destruct (robots_events _ _ _ _ _ Er) as (E1 & E2 & E3 & E4 & E5).
    destruct (write_text_trace _ _ _ _ _ _ Ew) as (T1 & T2 & T3 & T4).
    apply write_text_cases in Ew.
    exists [], [u]. subst st'. simpl. rewrite T1, T2, T3.
    rewrite !popped_app, !pushed_app, !fetched_app, E1, E2, E3.
    simpl. rewrite ?app_nil_r.
    destruct Ew as [(_ & _ & _ & [=])|(Hne & -> & _)].
    exists [extract_text W html +:+ newline +:+ newline].
    rewrite !written_app, E4. simpl. rewrite ?app_nil_r.
    split_and!; close_summary.
    + intros d ->%list_elem_of_singleton. eauto.
    + intros Hok. by destruct (robots_cache _ _ _ _ _ Er Hok).
  - destruct (robots_events _ _ _ _ _ Er) as (E1 & E2 & E3 & E4 & E5).
    destruct (write_text_trace _ _ _ _ _ _ Ew) as (T1 & T2 & T3 & T4).
    apply write_text_cases in Ew.
    assert (exists ws, written tr3 = written (trace st) ++ ws
              /\ forall d, d ∈ ws -> exists text, text <> EmptyString
                   /\ d = text +:+ newline +:+ newline) as (ws & Hw & Hws).
    { destruct Ew as [(_ & _ & -> & _)|(Hne & -> & _)].
      - exists []. rewrite !written_app, E4. simpl. rewrite ?app_nil_r.
        auto using written_nonempty_nil.
      - exists [extract_text W html +:+ newline +:+ newline].
        rewrite !written_app, E4. simpl. rewrite ?app_nil_r. split; [done|].
        intros d ->%list_elem_of_singleton. eauto. }
    exists new, [u], ws. subst st'. simpl.
    rewrite !popped_app, !pushed_app, !fetched_app, !written_app.
    rewrite popped_pushes, pushed_pushes, fetched_pushes, written_pushes.
    rewrite T1, T2, T3, Hw.
    rewrite !popped_app, !pushed_app, !fetched_app, E1, E2, E3.
    simpl. rewrite ?app_nil_r.
    split_and!; close_summary.
    + intros x Hx%Hin. tauto.
    + intros Hok. by destruct (robots_cache _ _ _ _ _ Er Hok).
Qed.

End LoopFacts.

(** ** Invariants of the loop *)

Section RunFacts.

Context (W : world) (C : config).

Local Ltac step_summary H u rest new fs ws :=
  let Hg := fresh "Hguard" in
  let Hq := fresh "Hqueue" in
  let Hb := fresh "Hbody" in
  apply loop_step_cases in H as (Hg & u & rest & Hq & Hb);
  apply body_case_summary in Hb
    as (new & fs & ws & Hq' & Hnd & Hfresh & Hpop & Hpush & Hfet & Hfs
        & Hwr & Hws & Hnext & Hbrk & Hcache).

Lemma run_cache_ok st fl : run_state W C st fl -> cache_ok W (robots_parsers st).
Proof.
  induction 1 as [|st st' fl _ IH Hstep]; [apply cache_ok_empty|].
  step_summary Hstep u rest new fs ws. auto.
Qed.

(** What was popped, followed by what is pending, is the seed list followed
    by what was appended. *)
Lemma run_fifo st fl :
  run_state W C st fl ->
  popped (trace st) ++ queue st = start_urls C ++ pushed (trace st).
Proof.
  induction 1 as [|st st' fl _ IH Hstep]; simpl; [by rewrite app_nil_r|].
  step_summary Hstep u rest new fs ws.
  rewrite Hpop, Hq', Hpush, Hqueue in *.
  rewrite <- app_assoc. simpl. rewrite !app_assoc. by rewrite <- IH, <- app_assoc.
Qed.

Lemma run_fetched st fl :
  run_state W C st fl ->
  NoDup (fetched (trace st))
  /\ (fl = Next -> forall u, u ∈ fetched (trace st) -> u ∈ seen st).
Proof.
  induction 1 as [|st st' fl _ [IHnd IHin] Hstep]; simpl.
  { split; [constructor|]. by intros _ u ?%elem_of_nil. }
  specialize (IHin eq_refl).
  step_summary Hstep u rest new fs ws.
  rewrite Hfet. split.
  - destruct Hfs as [->|[-> Hu]]; [by rewrite app_nil_r|].
    apply NoDup_app. split; [done|]. split; [|apply NoDup_singleton].
    intros x Hx ->%list_elem_of_singleton. by apply Hu, IHin.
  - intros ->. rewrite (Hnext eq_refl). intros x [Hx|Hx]%elem_of_app.
    + apply elem_of_union_r. by apply IHin.
    + apply elem_of_union_l, elem_of_singleton.
      destruct Hfs as [->|[-> _]]; [by apply elem_of_nil in Hx|].
      by apply list_elem_of_singleton in Hx.
Qed.

Lemma run_queue_fresh st fl :
  NoDup (start_urls C) ->
  run_state W C st fl ->
  NoDup (queue st) /\ forall x, x ∈ queue st -> x ∉ seen st.
Proof.
  intros Hseeds.
  induction 1 as [|st st' fl _ [IHnd IHin] Hstep]; simpl.
  { split; [done|]. intros x _. apply not_elem_of_empty. }
  step_summary Hstep u rest new fs ws.
  rewrite Hqueue in IHnd, IHin. apply NoDup_cons in IHnd as [Hu Hrest].
  rewrite Hq'. split.
  - apply NoDup_app. split; [done|]. split; [|done].
    intros x Hx Hx'. by destruct (Hfresh x Hx').
  - intros x [Hx|Hx]%elem_of_app; [|by destruct (Hfresh x Hx)].
    assert (x ∉ seen st) by (apply IHin; by right).
    assert (x <> u) by (by intros ->).
    destruct fl.
    + rewrite (Hnext eq_refl). set_solver.
    + by destruct (Hbrk eq_refl) as [-> _].
Qed.

Lemma run_written st fl :
  run_state W C st fl ->
  forall d, d ∈ written (trace st) ->
    exists text, text <> EmptyString /\ d = text +:+ newline +:+ newline.
Proof.
  induction 1 as [|st st' fl _ IH Hstep]; simpl.
  { by intros d ?%elem_of_nil. }
  step_summary Hstep u rest new fs ws.
  rewrite Hwr. intros d [?|?]%elem_of_app; auto.
Qed.

Lemma size_add_fresh (u : string) (X : gset string) :
  u ∉ X -> size ({[u]} ∪ X) = S (size X).
Proof.
  intros Hu. rewrite size_union by set_solver. by rewrite size_singleton.
Qed.

Lemma size_add_le (u : string) (X : gset string) :
  (size ({[u]} ∪ X) <= S (size X))%nat.
Proof.
  destruct (decide (u ∈ X)) as [Hu|Hu].
  - replace ({[u]} ∪ X) with X by (apply leibniz_equiv; set_solver). lia.
  - rewrite size_add_fresh by done. lia.
Qed.

Lemma run_bound st fl :
  run_state W C st fl ->
  let extra := match fl with Next => 0%nat | Break => 1%nat end in
  (length (fetched (trace st)) <= size (seen st) + extra)%nat
  /\ Z.of_nat (size (seen st) + extra) <= Z.max 0 (max_pages C).
Proof.
  induction 1 as [|st st' fl _ [IHlen IHsz] Hstep]; cbv zeta in *.
  { assert (size (seen (init C)) = 0%nat) as -> by apply size_empty.
    simpl. lia. }
  rewrite Nat.add_0_r in IHlen, IHsz.
  step_summary Hstep u rest new fs ws.
  apply loop_guard_spec in Hguard as (_ & Hlt & _).
  rewrite Hfet, length_app. destruct fl.
  - rewrite (Hnext eq_refl). pose proof (size_add_le u (seen st)).
    split; [|lia].
    destruct Hfs as [->|[-> Hu]]; simpl.
    + destruct (decide (u ∈ seen st)) as [Hu|Hu].
      * replace ({[u]} ∪ seen st) with (seen st)
          by (apply leibniz_equiv; set_solver). lia.
      * rewrite size_add_fresh by done. lia.
    + rewrite size_add_fresh by done. lia.
  - destruct (Hbrk eq_refl) as [-> ->]. simpl. lia.
Qed.

(** *** Termination *)

Lemma body_case_measure u rest st st' :
  body_case W C u rest st st' Next ->
  (seen st' = seen st /\ queue st' = rest)
  \/ size (seen st') = S (size (seen st)).
Proof.
  inversion 1; subst; simpl; [left; done|right..]; by apply size_add_fresh.
Qed.

Lemma crawl_loop_terminates_aux n :
  forall m st,
    (Z.to_nat (max_pages C - Z.of_nat (size (seen st))) <= n)%nat ->
    (length (queue st) <= m)%nat ->
    exists fuel st', crawl_loop W C fuel st = Some st'.
Proof.
  induction n as [|n IHn]; intros m; induction m as [|m IHm]; intros st Hn Hm;
    destruct (iteration W C st) as [[st' [|]|st']|] eqn:E;
    try (exists 1%nat; simpl; rewrite E; eauto; fail);
    pose proof (proj2 (loop_step_iteration W C st st' Next) E) as E';
    apply loop_step_cases in E' as (Hg & u & rest & Hq & Hb);
    apply loop_guard_spec in Hg as (_ & Hlt & _);
    apply body_case_measure in Hb as [[Hs Hr]|Hs];
    rewrite Hq in Hm; simpl in Hm; try lia.
  all: first
    [ destruct (IHm st') as (fuel & st'' & H); [by rewrite Hs|rewrite Hr; lia|]
    | destruct (IHn (length (queue st')) st') as (fuel & st'' & H);
        [rewrite Hs; lia|lia|] ];
    exists (S fuel), st''; simpl; by rewrite E.
Qed.

(** The loop always ends. *)
Lemma crawl_loop_terminates st :
  exists fuel st', crawl_loop W C fuel st = Some st'.
Proof.
  apply (crawl_loop_terminates_aux
           (Z.to_nat (max_pages C - Z.of_nat (size (seen st))))
           (length (queue st))); lia.
Qed.

(** The loop ends in a state it passed through, at which the condition
    fails or which a [break] produced, or in the state in which an
    exception left an iteration. *)
Lemma crawl_loop_run_raise fuel st st' :
  run_state W C st Next ->
  crawl_loop W C fuel st = Some st' ->
  (exists fl, run_state W C st' fl
              /\ (fl = Break \/ iteration W C st' = None))
  \/ (exists st0, run_state W C st0 Next
                  /\ iteration W C st0 = Some (Raised st')).
Proof.
  revert st. induction fuel as [|fuel IH]; intros st Hrun; simpl; [done|].
  destruct (iteration W C st) as [[st1 [|]|st1]|] eqn:E.
  - intros H. apply (IH st1); [|done].
    apply (run_iter W C st); [done|]. by apply loop_step_iteration.
  - intros [= <-]. left. exists Break. split; [|by left].
    apply (run_iter W C st); [done|]. by apply loop_step_iteration.
  - intros [= <-]. right. eauto.
  - intros [= <-]. left. exists Next. auto.
Qed.

(** Where no link raises, the loop ends in a state it passed through. *)
Lemma crawl_loop_run fuel st st' :
  (forall u href, link_raises W u href = false) ->
  run_state W C st Next ->
  crawl_loop W C fuel st = Some st' ->
  exists fl, run_state W C st' fl
             /\ (fl = Break \/ loop_step W C st' = None).
Proof.
  intros Hsafe Hrun H.
  destruct (crawl_loop_run_raise fuel st st' Hrun H)
    as [(fl & Hfl & Hend)|(st0 & _ & E)].
  - exists fl. split; [done|]. destruct Hend as [?|Hend]; [by left|right].
    unfold loop_step. by rewrite Hend.
  - unfold iteration in E. destruct (loop_guard C st0); [|done].
    destruct (queue st0) as [|u rest]; [done|]. injection E as E.
    apply loop_body_raised in E as (html & _ & Hx).
    assert (existsb (link_raises W u) (anchors W html) = false) as Hx'
      by (apply existsb_false; auto).
    rewrite Hx' in Hx. discriminate.
Qed.

(** The state in which an exception leaves the loop: what the iteration
    did before the exception. *)
Lemma raised_summary st st' :
  iteration W C st = Some (Raised st') ->
  loop_guard C st = true
  /\ exists u rest new ws,
       queue st = u :: rest
       /\ u ∉ seen st
       /\ queue st' = rest ++ new
       /\ NoDup new
       /\ (forall x, x ∈ new -> (x ∉ seen st') /\ x ∉ rest)
       /\ popped (trace st') = popped (trace st) ++ [u]
       /\ pushed (trace st') = pushed (trace st) ++ new
       /\ fetched (trace st') = fetched (trace st) ++ [u]
       /\ written (trace st') = written (trace st) ++ ws
       /\ (forall d, d ∈ ws ->
             exists text, text <> EmptyString /\ d = text +:+ newline +:+ newline)
       /\ seen st' = {[u]} ∪ seen st
       /\ sleeps (trace st') = sleeps (trace st)
       /\ last (trace st') = Some EvRaise.
Proof.
  unfold iteration. destruct (loop_guard C st); [|done].
  destruct (queue st) as [|u rest]; [done|]. intros [= E]. split; [done|].
  apply loop_body_raised_case in E
    as (ps & evs & html & tc & tr3 & new & Hu & Er & Hf & Ew & Hx & Hnd & Hin
        & ->).
  destruct (robots_events _ _ _ _ _ _ Er) as (E1 & E2 & E3 & E4 & E5).
  destruct (write_text_trace _ _ _ _ _ _ _ Ew) as (T1 & T2 & T3 & T4).
  apply write_text_cases in Ew.
  assert (exists ws, written tr3 = written (trace st) ++ ws
            /\ forall d, d ∈ ws -> exists text, text <> EmptyString
                 /\ d = text +:+ newline +:+ newline) as (ws & Hw & Hws).
  { destruct Ew as [(_ & _ & -> & _)|(Hne & -> & _)].
    - exists []. rewrite !written_app, E4. simpl. rewrite ?app_nil_r.
      auto using written_nonempty_nil.
    - exists [extract_text W html +:+ newline +:+ newline].
      rewrite !written_app, E4. simpl. rewrite ?app_nil_r. split; [done|].
      intros d ->%list_elem_of_singleton. eauto. }
  exists u, rest, new, ws. cbn [trace seen queue].
  rewrite !popped_app, !pushed_app, !fetched_app, !written_app, !sleeps_app.
  rewrite popped_pushes, pushed_pushes, fetched_pushes, written_pushes,
    sleeps_pushes.
  rewrite T1, T2, T3, T4, Hw.
  rewrite !popped_app, !pushed_app, !fetched_app, !sleeps_app, E1, E2, E3, E5,
    !sleeps_one.
  simpl. rewrite ?app_nil_r, last_snoc.
  split_and!; try done; try lia.
  intros x Hx'%Hin. tauto.
Qed.

(** What holds of every state the loop passes through holds as well of the
    state in which an exception leaves it: the order of the queue, no URL
    fetched twice, no URL pending twice, the bounds set by [max_pages], and
    no empty text written. *)
Lemma raised_state_safe st st' :
  run_state W C st Next ->
  iteration W C st = Some (Raised st') ->
  popped (trace st') ++ queue st' = start_urls C ++ pushed (trace st')
  /\ NoDup (fetched (trace st'))
  /\ (NoDup (start_urls C) -> NoDup (queue st'))
  /\ Z.of_nat (size (seen st')) <= Z.max 0 (max_pages C)
  /\ Z.of_nat (length (fetched (trace st'))) <= Z.max 0 (max_pages C)
  /\ (forall d, d ∈ written (trace st') ->
        exists text, text <> EmptyString /\ d = text +:+ newline +:+ newline).
Proof.
  intros Hrun (Hg & u & rest & new & ws & Hq & Hu & Hq' & Hnd & Hfresh & Hpop
               & Hpush & Hfet & Hwr & Hws & Hseen & _)%raised_summary.
  apply loop_guard_spec in Hg as (_ & Hlt & _).
  pose proof (run_fifo st Next Hrun) as Hfifo.
  destruct (run_fetched st Next Hrun) as [Hfnd Hfin].
  pose proof (run_bound st Next Hrun) as [Hlen Hsz]. cbv zeta in Hlen, Hsz.
  rewrite Nat.add_0_r in Hlen, Hsz.
  assert (size (seen st') = S (size (seen st))) as Hsize
    by (rewrite Hseen; by apply size_add_fresh).
  split_and!.
  - rewrite Hpop, Hq', Hpush. rewrite Hq in Hfifo.
    rewrite <- app_assoc. simpl. rewrite !app_assoc.
    by rewrite <- Hfifo, <- app_assoc.
  - rewrite Hfet. apply NoDup_app. split; [done|].
    split; [|apply NoDup_singleton].
    intros x Hx ->%list_elem_of_singleton. by apply Hu, Hfin.
  - intros Hseeds. destruct (run_queue_fresh st Next Hseeds Hrun) as [Hqnd _].
    rewrite Hq in Hqnd. apply NoDup_cons in Hqnd as [_ Hrest].
    rewrite Hq'. apply NoDup_app. split; [done|]. split; [|done].
    intros x Hx Hx'. by destruct (Hfresh x Hx').
  - lia.
  - rewrite Hfet, length_app. simpl. lia.
  - rewrite Hwr. intros d [Hd|Hd]%elem_of_app; [|auto].
    by apply (run_written st Next Hrun).
Qed.

End RunFacts.

(** ** Crawling a chain of pages *)

Section ChainFacts.

Context (W : world) (C : config) (chain : nat -> string).

Hypothesis Hweb : chain_web W C chain.

Lemma chain_inj i j : chain i = chain j -> i = j.
Proof. destruct Hweb as (H & _). apply H. Qed.

Lemma chain_prefix_elem k x :
  x ∈ (list_to_set (chain <$> seq 0 k) : gset string) <->
  exists i, (i < k)%nat /\ x = chain i.
Proof.
  rewrite elem_of_list_to_set, list_elem_of_fmap. split.
  - intros (i & -> & Hi%elem_of_seq). exists i. split; [lia|done].
  - intros (i & Hi & ->). exists i. split; [done|]. apply elem_of_seq. lia.
Qed.

Lemma chain_prefix_size k :
  size (list_to_set (chain <$> seq 0 k) : gset string) = k.
Proof.
  rewrite size_list_to_set.
  - by rewrite length_fmap, length_seq.
  - apply NoDup_fmap_2; [|apply NoDup_seq]. intros i j. apply chain_inj.
Qed.

Lemma chain_prefix_S k :
  ({[chain k]} ∪ list_to_set (chain <$> seq 0 k) : gset string)
  = list_to_set (chain <$> seq 0 (S k)).
Proof.
  apply set_eq. intros x.
  rewrite elem_of_union, elem_of_singleton, !chain_prefix_elem. split.
  - intros [->|(i & Hi & ->)]; [exists k|exists i]; split; auto with lia.
  - intros (i & Hi & ->). destruct (decide (i = k)) as [->|]; [by left|].
    right. exists i. split; [lia|done].
Qed.

Lemma chain_init : chain_inv W chain 0 (init C).
Proof.
  destruct Hweb as (_ & Hs & _). unfold chain_inv, init. simpl.
  rewrite Hs. split_and!; auto using cache_ok_empty.
Qed.

Lemma singleton_list (x : string) (l : list string) :
  NoDup l -> (forall y, y ∈ l <-> y = x) -> l = [x].
Proof.
  intros Hnd Hl. destruct l as [|a l].
  - assert (x ∈ @nil string) as ?%elem_of_nil by by apply Hl. done.
  - assert (a = x) as -> by (apply Hl; by left).
    destruct l as [|b l]; [done|].
    assert (b = x) as -> by (apply Hl; right; by left).
    apply NoDup_cons in Hnd as [Hx _]. destruct Hx. by left.
Qed.

Lemma chain_step k st st' fl :
  chain_inv W chain k st ->
  loop_step W C st = Some (st', fl) ->
  fetched (trace st') = chain <$> seq 0 (S k)
  /\ (exists html tr2 tr3,
        fetch_url W (chain k) = Some html
        /\ write_text C (extract_text W html) (token_count st) tr2
           = (token_count st', tr3, fl)
        /\ (fl = Break -> trace st' = tr3))
  /\ (fl = Next -> chain_inv W chain (S k) st').
Proof.
  intros (Hseen & Hqueue & Hcache & Hfet) Hstep.
  destruct Hweb as (Hinj & Hseeds & Helig & Hrob & Hpages).
  apply loop_step_cases in Hstep as (_ & u & rest & Hq & Hb).
  rewrite Hqueue in Hq. injection Hq as <- <-.
  assert (chain k ∉ seen st) as Hfresh.
  { rewrite Hseen, chain_prefix_elem. intros (i & Hi & Heq%Hinj). lia. }
  assert (seq 0 (S k) = seq 0 k ++ [k]) as Hseq by apply seq_S.
  destruct (Hpages k) as (html0 & Hf0 & (h1 & Hh1 & Hnext) & Hlinks).
  destruct Hb as [Hs E | parsers evs Hs Er E | parsers evs Hs Er Ef E
                | parsers evs html tc tr3 Hs Er Ef Ew E
                | parsers evs html tc tr3 new Hs Er Ef Ew Ep Hnd Hin E].
  - done.
  - destruct (robots_cache _ _ _ _ _ _ Er Hcache) as [_ Hb].
    rewrite Hrob in Hb. discriminate.
  - congruence.
  - destruct (robots_events _ _ _ _ _ _ Er) as (E1 & E2 & E3 & E4 & E5).
    destruct (write_text_trace _ _ _ _ _ _ _ Ew) as (T1 & _).
    subst st'. cbn [trace token_count seen queue robots_parsers]. split_and!.
    + rewrite T1, !fetched_app, E1, Hfet, Hseq, fmap_app.
      cbn [fetched omap fmap list_fmap app]. by rewrite ?app_nil_r.
    + eauto 10.
    + discriminate.
  - destruct (robots_events _ _ _ _ _ _ Er) as (E1 & E2 & E3 & E4 & E5).
    destruct (robots_cache _ _ _ _ _ _ Er Hcache) as [Hcache' _].
    destruct (write_text_trace _ _ _ _ _ _ _ Ew) as (T1 & _).
    assert (fetched (trace st') = chain <$> seq 0 (S k)) as Hfet'.
    { subst st'. cbn [trace token_count seen queue robots_parsers].
      rewrite !fetched_app, fetched_pushes, T1, !fetched_app, E1, Hfet, Hseq,
        fmap_app.
      cbn [fetched omap fmap list_fmap app]. by rewrite ?app_nil_r. }
    assert (new = [chain (S k)]) as ->.
    { apply singleton_list; [done|]. intros y. rewrite Hin. split.
      - intros ((h & -> & Hh)%list_elem_of_fmap & _ & Hy & _).
        rewrite Ef in Hf0. injection Hf0 as <-.
        destruct (Hlinks h Hh) as (_ & m & Hm & Hjoin). rewrite Hjoin in *.
        destruct (decide (m = S k)) as [->|]; [done|]. destruct Hy.
        rewrite Hseen, chain_prefix_S, chain_prefix_elem. exists m.
        split; [lia|done].
      - intros ->. rewrite Ef in Hf0. injection Hf0 as <-. split_and!.
        + apply list_elem_of_fmap. eauto.
        + apply Helig.
        + rewrite Hseen, chain_prefix_S, chain_prefix_elem.
          intros (i & Hi & Heq%Hinj). lia.
        + apply not_elem_of_nil. }
    split_and!; [done| |].
    + subst st'. cbn [trace token_count seen queue robots_parsers]. exists html, (((trace st ++ [EvPop (chain k)]) ++ evs) ++ [EvFetch (chain k)]), tr3.
      split_and!; [done|done|discriminate].
    + intros _. subst st'. unfold chain_inv.
      cbn [trace token_count seen queue robots_parsers] in *.
      rewrite Hseen, chain_prefix_S. split_and!; done.
Qed.

Lemma chain_guard k st :
  chain_inv W chain k st ->
  Z.of_nat k < max_pages C ->
  (forall m, max_tokens C = Some m -> token_count st < m) ->
  exists st' fl, loop_step W C st = Some (st', fl).
Proof.
  intros (Hseen & Hqueue & _) Hk Htok.
  destruct (loop_body_done W C (chain k) [] st) as (st' & fl & E).
  { intros html Hf. destruct Hweb as (_ & _ & _ & _ & Hpages).
    destruct (Hpages k) as (html0 & Hf0 & _ & Hlinks).
    rewrite Hf in Hf0. injection Hf0 as <-.
    apply existsb_false. intros h Hh. by destruct (Hlinks h Hh). }
  exists st', fl. apply loop_step_iteration. unfold iteration.
  assert (loop_guard C st = true) as ->.
  { apply loop_guard_spec. rewrite Hqueue, Hseen, chain_prefix_size.
    split_and!; [done|done|]. destruct (max_tokens C) as [m|]; eauto. }
  by rewrite Hqueue, E.
Qed.

(** Without a token limit the loop fetches the first [max_pages] pages of
    the chain, in order, and stops. *)
Lemma chain_run_pages j :
  max_tokens C = None ->
  forall k st,
    chain_inv W chain k st ->
    Z.of_nat (k + j) = max_pages C ->
    exists fuel st',
      crawl_loop W C fuel st = Some st'
      /\ fetched (trace st') = chain <$> seq 0 (k + j).
Proof.
  intros Hnone. induction j as [|j IH]; intros k st Hinv Hmax.
  - exists 1%nat, st. rewrite Nat.add_0_r in *. split; [|apply Hinv].
    simpl. unfold iteration.
    assert (loop_guard C st = false) as ->; [|done].
    apply not_true_iff_false. intros (_ & Hlt & _)%loop_guard_spec.
    destruct Hinv as (Hseen & _). rewrite Hseen, chain_prefix_size in Hlt. lia.
  - destruct (chain_guard k st Hinv) as (st1 & fl & Hstep); [lia|congruence|].
    destruct (chain_step k st st1 fl Hinv Hstep)
      as (_ & (html & tr2 & tr3 & _ & Hw & _) & Hnext).
    assert (fl = Next) as ->.
    { apply write_text_cases in Hw
        as [(_ & _ & _ & ?)|(_ & _ & [(_ & _ & ?)|(m & ? & _)])];
        congruence. }
    destruct (IH (S k) st1 (Hnext eq_refl)) as (fuel & st' & Hrun & Hfet);
      [lia|].
    exists (S fuel), st'. rewrite (crawl_loop_step W C _ _ _ _ Hstep).
    replace (k + S j)%nat with (S k + j)%nat by lia. done.
Qed.

(** With a limit of 100 tokens and 60 words on every page, the loop
    fetches two pages and leaves by [break] right after its second write. *)
Lemma chain_run_tokens :
  max_tokens C = Some 100 ->
  2 <= max_pages C ->
  (forall n html, fetch_url W (chain n) = Some html ->
                  split_len (extract_text W html) = 60%nat) ->
  exists st',
    crawl W C 2 = Some st'
    /\ fetched (trace st') = [chain 0%nat; chain 1%nat]
    /\ token_count st' = 120
    /\ exists tr d, trace st' = tr ++ [EvWrite d].
Proof.
  intros Hmax Hpages Hwords.
  destruct (chain_guard 0 (init C) chain_init) as (st1 & fl1 & Hstep1);
    [lia|intros m; rewrite Hmax; intros [= <-]; simpl; lia|].
  destruct (chain_step 0 _ st1 fl1 chain_init Hstep1)
    as (_ & (html1 & tr2 & tr3 & Hf1 & Hw1 & _) & Hnext1).
  apply Hwords in Hf1. simpl in Hw1.
  apply write_text_cases in Hw1
    as [(Ht & _)|(_ & _ & [(? & _)|(m & Hm & Htc & Hfl)])];
    [rewrite Ht in Hf1; discriminate|congruence|].
  rewrite Hmax in Hm. injection Hm as <-. rewrite Hf1 in Htc.
  destruct Hfl as [[? _]|[_ ->]]; [lia|].
  specialize (Hnext1 eq_refl).
  destruct (chain_guard 1 st1 Hnext1) as (st2 & fl2 & Hstep2);
    [lia|intros m; rewrite Hmax; intros [= <-]; lia|].
  destruct (chain_step 1 _ st2 fl2 Hnext1 Hstep2)
    as (Hfet & (html2 & tr2' & tr3' & Hf2 & Hw2 & Htr) & _).
  apply Hwords in Hf2.
  apply write_text_cases in Hw2
    as [(Ht & _)|(_ & Htr3 & [(? & _)|(m & Hm & Htc2 & Hfl)])];
    [rewrite Ht in Hf2; discriminate|congruence|].
  rewrite Hmax in Hm. injection Hm as <-. rewrite Hf2, Htc in Htc2.
  destruct Hfl as [[_ ->]|[? _]]; [|lia].
  exists st2. unfold crawl.
  rewrite (crawl_loop_step W C _ _ _ _ Hstep1),
    (crawl_loop_step W C _ _ _ _ Hstep2).
  split_and!; [done|done|lia|]. rewrite (Htr eq_refl), Htr3. eauto.
Qed.

End ChainFacts.

(** ** The small worlds *)

Lemma string_length_app (s1 s2 : string) :
  String.length (s1 +:+ s2) = (String.length s1 + String.length s2)%nat.
Proof.
  induction s1 as [|c s1 IH]; [done|].
  change (String c s1 +:+ s2) with (String c (s1 +:+ s2)).
  simpl. by rewrite IH.
Qed.

Lemma string_app_empty (s : string) : s +:+ EmptyString = s.
Proof.
  induction s as [|c s IH]; [done|].
  change (String c s +:+ EmptyString) with (String c (s +:+ EmptyString)).
  by rewrite IH.
Qed.

Lemma toy_chain_length n : String.length (Toy.chain n) = (9 + n)%nat.
Proof.
  induction n as [|n IH]; [done|].
  change (Toy.chain (S n)) with (Toy.chain n +:+ "x"%string).
  rewrite string_length_app, IH. simpl. lia.
Qed.

Lemma toy_chain_inj i j : Toy.chain i = Toy.chain j -> i = j.
Proof.
  intros H. apply (f_equal String.length) in H.
  rewrite !toy_chain_length in H. lia.
Qed.

Lemma toy_chain_web text pages tokens :
  chain_web (Toy.web (Robots.HTTPError 404) text)
    (Toy.conf [Toy.chain 0] pages tokens) Toy.chain.
Proof.
  split_and!.
  - apply toy_chain_inj.
  - reflexivity.
  - intros n. reflexivity.
  - intros n. reflexivity.
  - intros n. exists (Toy.chain n). split_and!.
    + reflexivity.
    + exists "x"%string. split; [by left|reflexivity].
    + intros h [->|[->|[]%elem_of_nil]%elem_of_cons]%elem_of_cons.
      * split; [reflexivity|]. exists (S n). split; [lia|reflexivity].
      * split; [reflexivity|]. exists n. split; [lia|].
        apply string_app_empty.
Qed.

Lemma toy_words_len n : split_len (Toy.words n) = n.
Proof.
  unfold split_len. induction n as [|n IH]; [done|].
  simpl. by rewrite IH.
Qed.

(** ** The properties of the specification *)

Lemma loop_step_body W C st u rest st' fl :
  queue st = u :: rest ->
  loop_step W C st = Some (st', fl) ->
  loop_guard C st = true /\ body_case W C u rest st st' fl.
Proof.
  intros Hq (Hg & u' & rest' & Hq' & Hb)%loop_step_cases.
  rewrite Hq in Hq'. injection Hq' as <- <-. done.
Qed.

(** When the write of a page's text brings the token count to the limit,
    the loop returns at once, whatever fuel is left: the write is the last
    thing done, and the rest of the queue is left alone. *)
Lemma budget_reached_stops W C st u rest html m fuel :
  loop_guard C st = true ->
  queue st = u :: rest ->
  u ∉ seen st ->
  (allowed_by_robots W u (robots_parsers st)).1.1 = true ->
  fetch_url W u = Some html ->
  extract_text W html <> EmptyString ->
  max_tokens C = Some m ->
  m <= token_count st + Z.of_nat (split_len (extract_text W html)) ->
  exists st',
    crawl_loop W C (S fuel) st = Some st'
    /\ token_count st'
       = token_count st + Z.of_nat (split_len (extract_text W html))
    /\ fetched (trace st') = fetched (trace st) ++ [u]
    /\ queue st' = rest
    /\ exists tr,
         trace st'
         = tr ++ [EvWrite (extract_text W html +:+ newline +:+ newline)].
Proof.
  intros Hg Hq Hu Hok Hf Ht Hm Hle. simpl. unfold iteration.
  rewrite Hg, Hq. unfold loop_body.
  rewrite bool_decide_eq_false_2 by done.
  destruct (allowed_by_robots W u (robots_parsers st)) as [[ok ps] evs] eqn:Er.
  simpl in Hok. subst ok. simpl. rewrite Hf. unfold write_text.
  rewrite bool_decide_eq_true_2 by done. rewrite Hm.
  destruct (Z.leb_spec m
              (token_count st + Z.of_nat (split_len (extract_text W html))));
    [|lia].
  destruct (robots_events _ _ _ _ _ _ Er) as (E1 & _).
  eexists. split; [reflexivity|]. simpl. split_and!; eauto.
  rewrite !fetched_app, E1. simpl. by rewrite !app_nil_r.
Qed.

(** With a limit of 100 tokens and 60 words on every page, in any world:
    the token count is 60 times the number of pages written, and no more
    than two pages are ever written. *)
Lemma tokens_bound W C st fl :
  max_tokens C = Some 100 ->
  (forall u html, fetch_url W u = Some html ->
                  split_len (extract_text W html) = 60%nat) ->
  run_state W C st fl ->
  token_count st = 60 * Z.of_nat (length (written (trace st)))
  /\ (length (written (trace st)) <= 2)%nat.
Proof.
  intros Hmax Hwords.
  induction 1 as [|st st' fl _ [IHtc IHlen] Hstep]; [simpl; lia|].
  apply loop_step_cases in Hstep as (Hg & u & rest & Hq & Hb).
  apply loop_guard_spec in Hg as (_ & _ & [Hg|(m & Hm & Hg)]); [congruence|].
  rewrite Hmax in Hm. injection Hm as <-.
  destruct Hb as [Hs E | parsers evs Hs Er E | parsers evs Hs Er Ef E
                | parsers evs html tc tr3 Hs Er Ef Ew E
                | parsers evs html tc tr3 new Hs Er Ef Ew Ep Hnd Hin E];
    try destruct (robots_events _ _ _ _ _ _ Er) as (E1 & E2 & E3 & E4 & E5);
    subst st'; cbn [trace token_count].
  - rewrite written_app. simpl. rewrite app_nil_r. lia.
  - rewrite !written_app, E4. simpl. rewrite !app_nil_r. lia.
  - rewrite !written_app, E4. simpl. rewrite !app_nil_r. lia.
  - apply Hwords in Ef.
    apply write_text_cases in Ew
      as [(Ht & _)|(_ & -> & [(? & _)|(m & Hm & -> & _)])];
      [rewrite Ht in Ef; discriminate|congruence|].
    rewrite !written_app, E4, Ef. simpl. rewrite !app_nil_r, length_app.
    simpl. lia.
  - apply Hwords in Ef.
    apply write_text_cases in Ew
      as [(Ht & _)|(_ & -> & [(? & _)|(m & Hm & -> & _)])];
      [rewrite Ht in Ef; discriminate|congruence|].
    rewrite !written_app, written_pushes, E4, Ef. simpl.
    rewrite !app_nil_r, length_app. simpl. lia.
Qed.

(** C2: a write that brings the token count to [max_tokens] or beyond ends
    the crawl at once, with no further fetch; with [max_tokens = 100] and 60
    words on every page, no run writes more than two pages, and on a chain
    of such pages exactly the first two are fetched, the second write being
    the last thing the run does. *)
Theorem token_budget_stops (W : world) (C : config) :
  (forall st u rest html m fuel,
      loop_guard C st = true ->
      queue st = u :: rest ->
      u ∉ seen st ->
      (allowed_by_robots W u (robots_parsers st)).1.1 = true ->
      fetch_url W u = Some html ->
      extract_text W html <> EmptyString ->
      max_tokens C = Some m ->
      m <= token_count st + Z.of_nat (split_len (extract_text W html)) ->
      exists st',
        crawl_loop W C (S fuel) st = Some st'
        /\ fetched (trace st') = fetched (trace st) ++ [u]
        /\ queue st' = rest
        /\ exists tr,
             trace st'
             = tr ++ [EvWrite (extract_text W html +:+ newline +:+ newline)])
  /\ (max_tokens C = Some 100 ->
      (forall u html, fetch_url W u = Some html ->
                      split_len (extract_text W html) = 60%nat) ->
      forall st fl,
        run_state W C st fl -> (length (written (trace st)) <= 2)%nat)
  /\ (forall chain,
        chain_web W C chain ->
        max_tokens C = Some 100 ->
        2 <= max_pages C ->
        (forall n html, fetch_url W (chain n) = Some html ->
                        split_len (extract_text W html) = 60%nat) ->
        exists fuel st',
          crawl W C fuel = Some st'
          /\ fetched (trace st') = [chain 0%nat; chain 1%nat]
          /\ exists tr d, trace st' = tr ++ [EvWrite d]).
Proof.
  split_and!.
  - intros st u rest html m fuel Hg Hq Hu Hok Hf Ht Hm Hle.
    destruct (budget_reached_stops W C st u rest html m fuel)
      as (st' & H1 & _ & H2 & H3 & H4); eauto.
  - intros Hmax Hwords st fl Hrun.
    by destruct (tokens_bound W C st fl Hmax Hwords Hrun).
  - intros chain Hweb Hmax Hpages Hwords.
    destruct (chain_run_tokens W C chain Hweb Hmax Hpages Hwords)
      as (st' & H1 & H2 & _ & H3).
    eauto.
Qed.

Lemma token_budget_stops_witness :
  let W := Toy.web (Robots.HTTPError 404) (Toy.words 60) in
  let C := Toy.conf [Toy.chain 0] 10 (Some 100) in
  chain_web W C Toy.chain
  /\ exists fuel st',
       crawl W C fuel = Some st'
       /\ fetched (trace st') = [Toy.chain 0; Toy.chain 1]
       /\ exists tr d, trace st' = tr ++ [EvWrite d].
Proof.
  intros W C. split; [apply toy_chain_web|].
  apply (proj2 (proj2 (token_budget_stops W C)) Toy.chain).
  - apply toy_chain_web.
  - reflexivity.
  - simpl. lia.
  - intros n html _. apply toy_words_len.
Defined.

(** C4: an iteration that issues a fetch started with fewer than
    [max_pages] URLs seen and, when a limit is set, fewer than [max_tokens]
    tokens counted; once the condition fails nothing more is done; and with
    [max_pages = 3], no token limit and a chain of pages linked to one
    another, exactly the first three pages are fetched. *)
Theorem fetch_only_within_limits (W : world) (C : config) :
  (forall st st' fl,
      loop_step W C st = Some (st', fl) ->
      fetched (trace st') <> fetched (trace st) ->
      Z.of_nat (size (seen st)) < max_pages C
      /\ (max_tokens C = None
          \/ exists m, max_tokens C = Some m /\ token_count st < m))
  /\ (forall st fuel,
        ~ (Z.of_nat (size (seen st)) < max_pages C
           /\ (max_tokens C = None
               \/ exists m, max_tokens C = Some m /\ token_count st < m)) ->
        crawl_loop W C (S fuel) st = Some st)
  /\ (forall chain,
        chain_web W C chain ->
        max_pages C = 3 ->
        max_tokens C = None ->
        exists fuel st',
          crawl W C fuel = Some st'
          /\ fetched (trace st') = [chain 0%nat; chain 1%nat; chain 2%nat]).
Proof.
  split_and!.
  - intros st st' fl (Hg & _)%loop_step_cases _.
    apply loop_guard_spec in Hg. tauto.
  - intros st fuel Hno. simpl. unfold iteration.
    destruct (loop_guard C st) eqn:Hg; [|done].
    apply loop_guard_spec in Hg. tauto.
  - intros chain Hweb Hmax Hnone.
    apply (chain_run_pages W C chain Hweb 3 Hnone 0 (init C)).
    + by apply chain_init.
    + rewrite Hmax. reflexivity.
Qed.

Lemma fetch_only_within_limits_witness :
  let W := Toy.web (Robots.HTTPError 404) (Toy.words 60) in
  let C := Toy.conf [Toy.chain 0] 3 None in
  chain_web W C Toy.chain
  /\ exists fuel st',
       crawl W C fuel = Some st'
       /\ fetched (trace st') = [Toy.chain 0; Toy.chain 1; Toy.chain 2].
Proof.
  intros W C. split; [apply toy_chain_web|].
  apply (proj2 (proj2 (fetch_only_within_limits W C)) Toy.chain).
  - apply toy_chain_web.
  - reflexivity.
  - reflexivity.
Defined.

(** C3, as stated, fails: a page whose text brings the token count to the
    limit is popped and fetched, and the loop is left by [break] before
    line 97 adds its URL to [seen]. *)
Lemma popped_url_visited_refuted :
  ~ (forall (W : world) (C : config) st st' fl u rest,
       queue st = u :: rest ->
       loop_step W C st = Some (st', fl) ->
       u ∈ seen st').
Proof.
  intros H.
  pose (W := Toy.web (Robots.HTTPError 404) (Toy.words 60)).
  pose (C := Toy.conf [Toy.chain 0] 10 (Some 50)).
  destruct (loop_step W C (init C)) as [[st' fl]|] eqn:E; [|by vm_compute in E].
  specialize (H W C (init C) st' fl (Toy.chain 0) [] eq_refl E).
  vm_compute in E. injection E as <- <-. simpl in H.
  by apply not_elem_of_empty in H.
Qed.

(** C3, amended: whenever the loop goes on after an iteration - the URL was
    already seen, was denied by robots.txt, could not be fetched, or was
    fetched without reaching the token limit - the popped URL is in [seen],
    and [seen] has gained that URL and nothing else; the loop is left by
    [break] only after a fetch that brought the token count to the limit. *)
Theorem popped_url_visited (W : world) (C : config) st st' fl u rest :
  queue st = u :: rest ->
  loop_step W C st = Some (st', fl) ->
  popped (trace st') = popped (trace st) ++ [u]
  /\ (fl = Next -> u ∈ seen st' /\ seen st' = {[u]} ∪ seen st)
  /\ (fl = Break ->
      fetched (trace st') = fetched (trace st) ++ [u]
      /\ exists m, max_tokens C = Some m /\ m <= token_count st').
Proof.
  intros Hq Hstep. destruct (loop_step_body W C st u rest st' fl Hq Hstep)
    as [_ Hb].
  pose proof (body_case_summary W C u rest st st' fl Hb)
    as (new & fs & ws & _ & _ & _ & Hpop & _ & Hfet & _ & _ & _ & Hnext
        & Hbrk & _).
  split_and!; [done| |].
  - intros Hfl. rewrite (Hnext Hfl). split; [set_solver|done].
  - intros Hfl. destruct (Hbrk Hfl) as [_ ->]. split; [done|].
    subst fl. inversion Hb as [| | |ps evs html tc tr3 Hs Er Ef Ew E|]; subst.
    apply write_text_cases in Ew
      as [(_ & _ & _ & [=])|(_ & _ & [(_ & _ & [=])|(m & Hm & Htc & Hfl)])].
    destruct Hfl as [[Hle _]|[_ [=]]]. simpl. eauto.
Qed.

Lemma popped_url_visited_witness :
  let W := Toy.web Robots.OtherError (Toy.words 60) in
  let C := Toy.conf [Toy.chain 0] 10 None in
  exists st',
    loop_step W C (init C) = Some (st', Next)
    /\ Toy.chain 0 ∈ seen st'.
Proof.
  intros W C.
  destruct (loop_step W C (init C)) as [[st' fl]|] eqn:E; [|by vm_compute in E].
  assert (fl = Next) as -> by (vm_compute in E; by injection E as _ <-).
  exists st'. split; [done|].
  apply (popped_url_visited W C (init C) st' Next (Toy.chain 0) [] eq_refl E).
  reflexivity.
Defined.








(** The run on the pages with a link that [urljoin] rejects: the first
    page is fetched and written, its first link is the page itself, its
    second link raises, and its third link, eligible and new, is never
    appended. *)
Lemma malformed_link_aborts :
  let B := Toy.broken (Toy.words 60) in
  let C := Toy.conf [Toy.chain 0] 10 None in
  exists st',
    crawl B C 1 = Some st'
    /\ fetched (trace st') = [Toy.chain 0]
    /\ pushed (trace st') = []
    /\ queue st' = []
    /\ sleeps (trace st') = 0%nat
    /\ last (trace st') = Some EvRaise
    /\ eligible B C (Toy.chain 1) = true
    /\ Toy.chain 1 ∈ (urljoin B (Toy.chain 0) <$> anchors B (Toy.chain 0)).
Proof.
  intros B C.
  destruct (crawl B C 1) as [st'|] eqn:E; [|by vm_compute in E].
  exists st'. split; [reflexivity|].
  vm_compute in E. injection E as <-.
  split_and!; try reflexivity.
  apply list_elem_of_fmap. exists "x"%string. split; [reflexivity|].
  right. right. by left.
Qed.





(** C7: in any run no URL is fetched twice; a link that is already in
    [seen] is never appended to the queue; and a popped URL that is in
    [seen] is dropped, with no robots check and no fetch. *)
Theorem fetched_at_most_once (W : world) (C : config) :
  (forall st fl, run_state W C st fl -> NoDup (fetched (trace st)))
  /\ (forall sn u acc href,
        urljoin W u href ∈ sn -> push_link W C sn u acc href = acc)
  /\ (forall u rest st,
        u ∈ seen st ->
        loop_body W C u rest st
        = Done (mkState (seen st) rest (robots_parsers st) (token_count st)
                  (trace st ++ [EvPop u])) Next).
Proof.
  split_and!.
  - intros st fl Hrun. by destruct (run_fetched W C st fl Hrun).
  - intros sn u acc href Hin. unfold push_link.
    repeat case_bool_decide; simpl; done.
  - intros u rest st Hu. unfold loop_body.
    by rewrite bool_decide_eq_true_2.
Qed.

Lemma fetched_at_most_once_witness :
  let W := Toy.web (Robots.HTTPError 404) (Toy.words 60) in
  let C := Toy.conf [Toy.chain 0; Toy.chain 0] 2 None in
  exists st',
    crawl W C 4 = Some st'
    /\ popped (trace st') = [Toy.chain 0; Toy.chain 0; Toy.chain 1]
    /\ NoDup (fetched (trace st')).
Proof.
  intros W C.
  destruct (crawl W C 4) as [st'|] eqn:E; [|by vm_compute in E].
  exists st'. split; [done|]. split.
  - vm_compute in E. by injection E as <-.
  - destruct (crawl_loop_run W C 4 (init C) st' (fun _ _ => eq_refl)
                (run_init W C) E) as (fl & Hrun & _).
    apply (proj1 (fetched_at_most_once W C) st' fl Hrun).
Defined.

(** C8: the URLs are popped in the order in which they entered the queue
    (the seeds, then every appended link): what was popped followed by what
    is pending is that sequence, so of two entries the earlier is popped
    first. *)
Theorem fifo_order (W : world) (C : config) st fl :
  run_state W C st fl ->
  popped (trace st) ++ queue st = start_urls C ++ pushed (trace st)
  /\ forall i j a b,
       (i < j)%nat ->
       (start_urls C ++ pushed (trace st)) !! i = Some a ->
       (start_urls C ++ pushed (trace st)) !! j = Some b ->
       (j < length (popped (trace st)))%nat ->
       popped (trace st) !! i = Some a /\ popped (trace st) !! j = Some b.
Proof.
  intros Hrun. pose proof (run_fifo W C st fl Hrun) as Hfifo.
  split; [done|]. intros i j a b Hij Ha Hb Hj.
  rewrite <- Hfifo in Ha, Hb.
  rewrite lookup_app_l in Ha by lia. rewrite lookup_app_l in Hb by lia.
  done.
Qed.

Lemma fifo_order_witness :
  let W := Toy.web (Robots.HTTPError 404) (Toy.words 60) in
  let C := Toy.conf [Toy.chain 0] 2 None in
  exists st',
    crawl W C 3 = Some st'
    /\ start_urls C ++ pushed (trace st')
       = [Toy.chain 0; Toy.chain 1; Toy.chain 2]
    /\ popped (trace st') !! 0%nat = Some (Toy.chain 0)
    /\ popped (trace st') !! 1%nat = Some (Toy.chain 1).
Proof.
  intros W C.
  destruct (crawl W C 3) as [st'|] eqn:E; [|by vm_compute in E].
  exists st'. split; [done|].
  assert (start_urls C ++ pushed (trace st')
          = [Toy.chain 0; Toy.chain 1; Toy.chain 2]) as Hh
    by (vm_compute in E; by injection E as <-).
  assert (length (popped (trace st')) = 2%nat) as Hl
    by (vm_compute in E; by injection E as <-).
  split; [done|].
  destruct (crawl_loop_run W C 3 (init C) st' (fun _ _ => eq_refl)
              (run_init W C) E) as (fl & Hrun & _).
  apply (proj2 (fifo_order W C st' fl Hrun) 0%nat 1%nat).
  - lia.
  - by rewrite Hh.
  - by rewrite Hh.
  - lia.
Defined.

(** C9, as stated, fails: a URL denied by robots.txt is dropped by
    [continue] with no call of [time.sleep]. *)
Lemma delay_every_iteration_refuted :
  ~ (forall (W : world) (C : config) st st',
       loop_step W C st = Some (st', Next) ->
       sleeps (trace st') = S (sleeps (trace st))).
Proof.
  intros H.
  pose (W := Toy.web Robots.OtherError (Toy.words 60)).
  pose (C := Toy.conf [Toy.chain 0] 10 None).
  destruct (loop_step W C (init C)) as [[st' fl]|] eqn:E; [|by vm_compute in E].
  assert (fl = Next) as -> by (vm_compute in E; by injection E as _ <-).
  specialize (H W C (init C) st' E).
  vm_compute in E. injection E as <-. vm_compute in H. discriminate.
Qed.

(** C9, amended: an iteration that called [fetch_url] and after which the
    loop goes on ends with one [time.sleep(delay)], whether the fetch failed
    or succeeded; an iteration for a URL denied by robots.txt does not
    sleep. *)
Theorem delay_after_each_fetch (W : world) (C : config) st st' fl u rest :
  queue st = u :: rest ->
  loop_step W C st = Some (st', fl) ->
  u ∉ seen st ->
  ((allowed_by_robots W u (robots_parsers st)).1.1 = true ->
   fl = Next ->
   fetched (trace st') = fetched (trace st) ++ [u]
   /\ sleeps (trace st') = S (sleeps (trace st))
   /\ exists tr, trace st' = tr ++ [EvSleep])
  /\ ((allowed_by_robots W u (robots_parsers st)).1.1 = false ->
      fl = Next
      /\ fetched (trace st') = fetched (trace st)
      /\ sleeps (trace st') = sleeps (trace st)).
Proof.
  intros Hq Hstep Hu.
  destruct (loop_step_body W C st u rest st' fl Hq Hstep) as [_ Hb].
  destruct Hb as [Hs E | parsers evs Hs Er E | parsers evs Hs Er Ef E
                | parsers evs html tc tr3 Hs Er Ef Ew E
                | parsers evs html tc tr3 new Hs Er Ef Ew Ep Hnd Hin E];
    try done; rewrite Er; simpl;
    destruct (robots_events _ _ _ _ _ _ Er) as (E1 & E2 & E3 & E4 & E5);
    (split; [|try discriminate]); try discriminate; subst st'; simpl.
  - intros _. rewrite !fetched_app, !sleeps_app, !sleeps_one, E1, E5. simpl.
    rewrite ?app_nil_r. split_and!; first [done|lia].
  - intros _ _. rewrite !fetched_app, !sleeps_app, !sleeps_one, E1, E5. simpl.
    rewrite ?app_nil_r. split_and!; first [done|lia|eauto].
  - intros _ _.
    destruct (write_text_trace _ _ _ _ _ _ _ Ew) as (T1 & _ & _ & T4).
    rewrite !fetched_app, !sleeps_app, fetched_pushes, sleeps_pushes, T1, T4.
    rewrite !fetched_app, !sleeps_app, !sleeps_one, E1, E5. simpl.
    rewrite ?app_nil_r. split_and!; first [done|lia|eauto].
Qed.

Lemma delay_after_each_fetch_witness :
  let W := Toy.web (Robots.HTTPError 404) (Toy.words 60) in
  let C := Toy.conf [Toy.chain 0] 10 None in
  exists st',
    loop_step W C (init C) = Some (st', Next)
    /\ sleeps (trace st') = 1%nat.
Proof.
  intros W C.
  destruct (loop_step W C (init C)) as [[st' fl]|] eqn:E; [|by vm_compute in E].
  assert (fl = Next) as -> by (vm_compute in E; by injection E as _ <-).
  exists st'. split; [done|].
  apply (proj1 (delay_after_each_fetch W C (init C) st' Next (Toy.chain 0) []
                  eq_refl E (not_elem_of_empty _)));
    reflexivity.
Defined.

(** C10: a popped URL that is denied by robots.txt, or whose fetch fails,
    or whose page yields no text, is added to [seen] all the same and
    nothing is written for it; the loop condition compares the size of
    [seen] with [max_pages]; so in any run [seen] never holds more than
    [max_pages] URLs, no more than [max_pages] fetches are issued, and
    every write is of a text that is not empty. *)
Theorem max_pages_counts_attempts (W : world) (C : config) :
  (forall st st' fl u rest,
      queue st = u :: rest ->
      loop_step W C st = Some (st', fl) ->
      u ∉ seen st ->
      ((allowed_by_robots W u (robots_parsers st)).1.1 = false
       \/ fetch_url W u = None
       \/ exists html, fetch_url W u = Some html
                       /\ extract_text W html = EmptyString) ->
      fl = Next
      /\ seen st' = {[u]} ∪ seen st
      /\ size (seen st') = S (size (seen st))
      /\ written (trace st') = written (trace st))
  /\ (forall st,
        loop_guard C st = true -> Z.of_nat (size (seen st)) < max_pages C)
  /\ (forall st fl,
        run_state W C st fl ->
        Z.of_nat (size (seen st)) <= Z.max 0 (max_pages C)
        /\ Z.of_nat (length (fetched (trace st))) <= Z.max 0 (max_pages C)
        /\ forall d, d ∈ written (trace st) ->
             exists text,
               text <> EmptyString /\ d = text +:+ newline +:+ newline).
Proof.
  split_and!.
  - intros st st' fl u rest Hq Hstep Hu Hcase.
    destruct (loop_step_body W C st u rest st' fl Hq Hstep) as [_ Hb].
    destruct Hb as [Hs E | parsers evs Hs Er E | parsers evs Hs Er Ef E
                  | parsers evs html tc tr3 Hs Er Ef Ew E
                  | parsers evs html tc tr3 new Hs Er Ef Ew Ep Hnd Hin E];
      try done;
      destruct (robots_events _ _ _ _ _ _ Er) as (E1 & E2 & E3 & E4 & E5);
      rewrite Er in Hcase; simpl in Hcase.
    + subst st'. simpl. rewrite !written_app, E4. simpl.
      rewrite ?app_nil_r. split_and!; auto using size_add_fresh.
    + subst st'. simpl. rewrite !written_app, E4. simpl.
      rewrite ?app_nil_r. split_and!; auto using size_add_fresh.
    + destruct Hcase as [?|[?|(html' & Hf & Ht)]]; [done|congruence|].
      rewrite Ef in Hf. injection Hf as <-.
      apply write_text_cases in Ew as [(_ & _ & _ & [=])|(? & _)]. done.
    + destruct Hcase as [?|[?|(html' & Hf & Ht)]]; [done|congruence|].
      rewrite Ef in Hf. injection Hf as <-.
      apply write_text_cases in Ew as [(_ & _ & -> & _)|(? & _)]; [|done].
      subst st'. simpl.
      rewrite !written_app, written_pushes, E4. simpl.
      rewrite ?app_nil_r. split_and!; auto using size_add_fresh.
  - intros st Hg. apply loop_guard_spec in Hg. tauto.
  - intros st fl Hrun. pose proof (run_bound W C st fl Hrun) as [Hlen Hsz].
    cbv zeta in *. split_and!; [lia|lia|].
    by apply (run_written W C st fl).
Qed.

Lemma max_pages_counts_attempts_witness :
  let W := Toy.web Robots.OtherError (Toy.words 60) in
  let C := Toy.conf [Toy.chain 0; Toy.chain 1; Toy.chain 2] 2 None in
  exists st',
    crawl W C 3 = Some st'
    /\ queue st' = [Toy.chain 2]
    /\ fetched (trace st') = []
    /\ Z.of_nat (size (seen st')) <= Z.max 0 (max_pages C).
Proof.
  intros W C.
  destruct (crawl W C 3) as [st'|] eqn:E; [|by vm_compute in E].
  exists st'. split; [done|].
  destruct (crawl_loop_run W C 3 (init C) st' (fun _ _ => eq_refl)
              (run_init W C) E) as (fl & Hrun & _).
  split_and!.
  - vm_compute in E. by injection E as <-.
  - vm_compute in E. by injection E as <-.
  - apply (proj2 (proj2 (max_pages_counts_attempts W C)) st' fl Hrun).
Defined.

(** The script always returns: the loop ends from every state. *)
Lemma crawl_terminates (W : world) (C : config) :
  exists fuel st', crawl W C fuel = Some st'.
Proof. apply crawl_loop_terminates. Qed.
